(** * simple_telegram_bot: the example bot of TELEBOT HOSTER

    A shallow embedding of [example_bots/simple_telegram_bot/bot.py]:
    the start-up check on the token, the four command callbacks, the
    free-text callback, the error callback and the handler table that
    [main] registers.

    Python [str] values are kept as UTF-8 byte strings: a literal of
    the source is the same literal here, [+] on strings is [+:+],
    [' '.join] is [String.concat " "], and [x in s] is [contains]. *)

From Stdlib Require Import ZArith Ascii.
From stdpp Require Import base option list relations strings gmap.

Local Open Scope Z_scope.

(** ** Strings *)

Module Str.

(** The line feed written [\n] in the source. *)
Definition nl : string := String (ascii_of_nat 10) EmptyString.

(** [sub in s] of Python on [str]: [sub] occurs in [s] as a
    contiguous block. *)
Fixpoint contains (sub s : string) : bool :=
  if String.prefix sub s then true
  else match s with
       | EmptyString => false
       | String _ s' => contains sub s'
       end.

(** The declarative reading of [contains]. *)
Definition occurs_in (sub s : string) : Prop :=
  ∃ pre post : string, s = pre +:+ sub +:+ post.

(** [str.lower] on one ASCII character: [A]..[Z] move to [a]..[z],
    every other byte stays. *)
Definition lower_char (c : ascii) : ascii :=
  let n := nat_of_ascii c in
  if (Nat.leb 65 n && Nat.leb n 90)%bool then ascii_of_nat (n + 32) else c.

(** [str.lower] on ASCII text. *)
Fixpoint ascii_lower (s : string) : string :=
  match s with
  | EmptyString => EmptyString
  | String c s' => String (lower_char c) (ascii_lower s')
  end.

(** Text whose every character is below 128. *)
Fixpoint is_ascii (s : string) : bool :=
  match s with
  | EmptyString => true
  | String c s' => Nat.ltb (nat_of_ascii c) 128 && is_ascii s'
  end.

End Str.

Import Str.

(** ** The objects a callback receives *)

(** [update.effective_user] *)
Record User := { id : Z; first_name : string }.

(** [update.message]; [reply_text] answers into [chat_id]. *)
Record Message := { message_id : Z; chat_id : Z; text : string }.

(** An inbound update.  [is_command], [command_name] and
    [command_args] are what the library reads off the leading
    bot-command entity of the message. *)
Record Update := {
  update_id : Z;
  message : Message;
  effective_user : User;
  is_command : bool;
  command_name : option string;
  command_args : list string
}.

(** An exception travelling up the Python stack. *)
Record Exception := Exc { exc_type : string; exc_message : string }.

(** [context]: the callbacks read [context.args], the error callback
    reads [context.error]. *)
Record Context := { args : list string; error : option Exception }.

(** ** Effects *)

Inductive Level := INFO | ERROR.

(** What is handed to the logger.  The f-string of [error_handler]
    is kept unformatted, with the two values it interpolates:
    [str(update)] belongs to the library. *)
Inductive LogMessage :=
| Plain (s : string)
| UpdateCausedError (u : Update) (e : option Exception).

(** The observable actions of the program, in the order they happen. *)
Inductive Event :=
| ReplyText (chat : Z) (body : string) (parse_mode : option string)
| Log (lvl : Level) (msg : LogMessage).

Inductive Outcome (A : Type) :=
| Returned (a : A)
| Raised (e : Exception).
Arguments Returned {A} a.
Arguments Raised {A} e.

(** A computation reads the events that happened before it, emits its
    own events and either returns or raises. *)
Definition Bot (A : Type) : Type := list Event → list Event * Outcome A.

Definition bot_ret {A} (a : A) : Bot A := λ _, ([], Returned a).

Definition bot_bind {A B} (m : Bot A) (k : A → Bot B) : Bot B :=
  λ past,
    match m past with
    | (out, Returned a) =>
        let '(out', r) := k a (past ++ out) in (out ++ out', r)
    | (out, Raised e) => (out, Raised e)
    end.

#[global] Instance Bot_ret : MRet Bot := @bot_ret.
#[global] Instance Bot_bind : MBind Bot := λ A B k m, bot_bind m k.

(** [try: m  except Exception as e: h e] *)
Definition try_except {A} (m : Bot A) (h : Exception → Bot A) : Bot A :=
  λ past,
    match m past with
    | (out, Returned a) => (out, Returned a)
    | (out, Raised e) =>
        let '(out', r) := h e (past ++ out) in (out ++ out', r)
    end.

Definition logger_info (s : string) : Bot unit :=
  λ _, ([Log INFO (Plain s)], Returned tt).

Definition logger_error (m : LogMessage) : Bot unit :=
  λ _, ([Log ERROR m], Returned tt).

(** The events a computation emits and how it ends. *)
Definition emitted {A} (m : Bot A) (past : list Event) : list Event :=
  fst (m past).
Definition outcome {A} (m : Bot A) (past : list Event) : Outcome A :=
  snd (m past).

(** The bodies handed to [reply_text], oldest first. *)
Fixpoint replies (evs : list Event) : list string :=
  match evs with
  | [] => []
  | ReplyText _ body _ :: evs' => body :: replies evs'
  | Log _ _ :: evs' => replies evs'
  end.

Definition Callback : Type := Update → Context → Bot unit.

(** ** The callbacks of bot.py *)

Section Callbacks.

(** The connection to the provider, an external collaborator: given
    everything that happened up to and including the call, the call
    goes through ([None]) or raises. *)
Variable transport : list Event → option Exception.

(** Python's [str.lower].  It is left open: the rules below only
    look for ASCII words in its result. *)
Variable lower : string → string.

(** [await message.reply_text(text, parse_mode=...)] *)
Definition reply_text (m : Message) (body : string)
    (parse_mode : option string) : Bot unit :=
  λ past,
    let call := ReplyText (chat_id m) body parse_mode in
    match transport (past ++ [call]) with
    | None => ([call], Returned tt)
    | Some e => ([call], Raised e)
    end.

Definition start_text (name : string) : string :=
  "👋 Hello " +:+ name +:+ "!" +:+ nl +:+ nl +:+
  "I'm a simple example bot running on TELEBOT HOSTER! 🤖" +:+ nl +:+ nl +:+
  "Try these commands:" +:+ nl +:+
  "/help - Show available commands" +:+ nl +:+
  "/about - Learn about this bot" +:+ nl +:+
  "/echo <message> - Echo your message back" +:+ nl +:+ nl +:+
  "Or just send me any message and I'll respond!".

Definition start_command (update : Update) (context : Context) : Bot unit :=
  let user := effective_user update in
  reply_text (message update) (start_text (first_name user)) None.

Definition help_text : string :=
  "📖 *Available Commands:*" +:+ nl +:+ nl +:+
  "/start - Start the bot" +:+ nl +:+
  "/help - Show this help message" +:+ nl +:+
  "/about - Learn about this bot" +:+ nl +:+
  "/echo <text> - Echo your message" +:+ nl +:+ nl +:+
  "You can also just send me any text message!".

Definition help_command (update : Update) (context : Context) : Bot unit :=
  reply_text (message update) help_text (Some "Markdown").

Definition about_text : string :=
  "ℹ️ *About This Bot*" +:+ nl +:+ nl +:+
  "This is a simple example Telegram bot hosted on TELEBOT HOSTER." +:+ nl +:+ nl +:+
  "🌐 Platform: TELEBOT HOSTER" +:+ nl +:+
  "💻 Language: Python" +:+ nl +:+
  "📚 Library: python-telegram-bot" +:+ nl +:+ nl +:+
  "You can deploy your own bots just like this one!".

Definition about_command (update : Update) (context : Context) : Bot unit :=
  reply_text (message update) about_text (Some "Markdown").

Definition echo_usage : string :=
  "Please provide a message to echo!" +:+ nl +:+ nl +:+
  "Example: /echo Hello World".

(** [if context.args:] holds exactly for a non-empty list. *)
Definition echo_command (update : Update) (context : Context) : Bot unit :=
  match args context with
  | _ :: _ =>
      let message_ := String.concat " " (args context) in
      reply_text (message update) ("🔄 You said: " +:+ message_) None
  | [] =>
      reply_text (message update) echo_usage None
  end.

Definition greeting_text (user_name : string) : string :=
  "Hello " +:+ user_name +:+ "! 👋 How can I help you today?".
Definition wellbeing_text : string :=
  "I'm doing great! Thanks for asking! 😊".
Definition farewell_text : string :=
  "Goodbye! Come back soon! 👋".
Definition default_text (user_message : string) : string :=
  "You said: " +:+ user_message +:+ nl +:+ nl +:+
  "Try using /help to see what I can do!".

Definition handle_message (update : Update) (context : Context) : Bot unit :=
  let user_message := text (message update) in
  let user_name := first_name (effective_user update) in
  if contains "hello" (lower user_message)
     || contains "hi" (lower user_message) then
    reply_text (message update) (greeting_text user_name) None
  else if contains "how are you" (lower user_message) then
    reply_text (message update) wellbeing_text None
  else if contains "bye" (lower user_message) then
    reply_text (message update) farewell_text None
  else
    reply_text (message update) (default_text user_message) None.

Definition error_handler (update : Update) (context : Context) : Bot unit :=
  logger_error (UpdateCausedError update (error context)).

End Callbacks.

(** ** The handler table and the dispatcher *)

(** [filters.TEXT & ~filters.COMMAND] is a term of this algebra. *)
Inductive Filter :=
| TEXT
| COMMAND
| FilterAnd (f g : Filter)
| FilterNot (f : Filter).

Inductive Handler :=
| CommandHandler (command : string) (callback : Callback)
| MessageHandler (filters : Filter) (callback : Callback).

Record Application := {
  token : string;
  handlers : list Handler;
  error_handlers : list Callback
}.

(** [Application.builder().token(t).build()] *)
Definition build (t : string) : Application :=
  {| token := t; handlers := []; error_handlers := [] |}.

Definition add_handler (app : Application) (h : Handler) : Application :=
  {| token := token app;
     handlers := handlers app ++ [h];
     error_handlers := error_handlers app |}.

Definition add_error_handler (app : Application) (cb : Callback) : Application :=
  {| token := token app;
     handlers := handlers app;
     error_handlers := error_handlers app ++ [cb] |}.

(** The names under which a command callback is registered. *)
Fixpoint command_names (hs : list Handler) : list string :=
  match hs with
  | [] => []
  | CommandHandler name _ :: hs' => name :: command_names hs'
  | MessageHandler _ _ :: hs' => command_names hs'
  end.

(** Modelled from the spec: the dispatcher lives in the
    python-telegram-bot library, of which bot.py holds only the calls.
    Section 4.1 gives the Router: a filter on the shape of the event,
    where every event carries a text and [COMMAND] is [is_command]. *)
Fixpoint check_filter (f : Filter) (u : Update) : bool :=
  match f with
  | TEXT => true
  | COMMAND => is_command u
  | FilterAnd f g => check_filter f u && check_filter g u
  | FilterNot f => negb (check_filter f u)
  end.

(** Modelled from the spec: section 4.1, a command event selects the
    callback registered under exactly its [command_name]. *)
Definition check_update (h : Handler) (u : Update) : bool :=
  match h with
  | CommandHandler name _ =>
      is_command u && bool_decide (command_name u = Some name)
  | MessageHandler f _ => check_filter f u
  end.

Definition callback_of (h : Handler) : Callback :=
  match h with
  | CommandHandler _ cb => cb
  | MessageHandler _ cb => cb
  end.

(** Modelled from the spec: section 4.1, the Router returns the one
    callback to invoke, the first whose check passes, or none. *)
Fixpoint route (hs : list Handler) (u : Update) : option Callback :=
  match hs with
  | [] => None
  | h :: hs' => if check_update h u then Some (callback_of h) else route hs' u
  end.

(** The context a callback is invoked with. *)
Definition context_of (u : Update) : Context :=
  {| args := command_args u; error := None |}.
Definition error_context_of (u : Update) (e : Exception) : Context :=
  {| args := command_args u; error := Some e |}.

(** Modelled from the spec: section 4.4, a failure of the callback is
    handed to the registered error callbacks, in order. *)
Fixpoint process_error (cbs : list Callback) (u : Update) (e : Exception)
    : Bot unit :=
  match cbs with
  | [] => mret tt
  | cb :: cbs' => cb u (error_context_of u e) ;; process_error cbs' u e
  end.

(** Modelled from the spec: section 4.4, one dispatch cycle: route the
    event, run the selected callback, catch what it raises. *)
Definition process_update (app : Application) (u : Update) : Bot unit :=
  match route (handlers app) u with
  | Some callback =>
      try_except (callback u (context_of u))
                 (λ e, process_error (error_handlers app) u e)
  | None => mret tt
  end.

(** The process: gone with an exit code, or polling in one of the two
    states of the Dispatch Loop. *)
Inductive Process :=
| Exited (code : Z)
| Idle (app : Application)
| Processing (app : Application) (u : Update).

(** Modelled from the spec: section 4.4, the transitions of the
    Dispatch Loop, over the process and the events so far.  An
    exception that leaves [process_update] ends the process, as an
    uncaught exception does in Python. *)
Inductive step : Process * list Event → Process * list Event → Prop :=
| step_receive app u past :
    step (Idle app, past) (Processing app u, past)
| step_done app u past out :
    process_update app u past = (out, Returned tt) →
    step (Processing app u, past) (Idle app, past ++ out)
| step_crash app u past out e :
    process_update app u past = (out, Raised e) →
    step (Processing app u, past) (Exited 1, past ++ out).

(** ** The script *)

Section Script.

Variable transport : list Event → option Exception.
Variable lower : string → string.

(** The application as [main] has set it up when it calls
    [run_polling]. *)
Definition application (BOT_TOKEN : string) : Application :=
  let application := build BOT_TOKEN in
  let application :=
    add_handler application
      (CommandHandler "start" (start_command transport)) in
  let application :=
    add_handler application
      (CommandHandler "help" (help_command transport)) in
  let application :=
    add_handler application
      (CommandHandler "about" (about_command transport)) in
  let application :=
    add_handler application
      (CommandHandler "echo" (echo_command transport)) in
  let application :=
    add_handler application
      (MessageHandler (FilterAnd TEXT (FilterNot COMMAND))
                      (handle_message transport lower)) in
  add_error_handler application error_handler.

(** [main()], up to the point where [run_polling] takes over. *)
Definition main (BOT_TOKEN : string) : Bot Process :=
  logger_info "🚀 Starting bot..." ;;
  let application := application BOT_TOKEN in
  logger_info "✅ Bot is running! Press Ctrl+C to stop." ;;
  mret (Idle application).

(** [os.getenv] on the environment of the process. *)
Definition getenv (environ : gmap string string) (name : string)
    : option string :=
  environ !! name.

(** Truth value of [BOT_TOKEN]: [None] and [''] are false. *)
Definition truthy (v : option string) : bool :=
  match v with
  | None => false
  | Some s => negb (bool_decide (s = ""))
  end.

(** [sys.exit(code)] at module level. *)
Definition sys_exit (code : Z) : Bot Process := mret (Exited code).

(** The module run as a script: the token check, then [main()]. *)
Definition script (environ : gmap string string) : Bot Process :=
  let BOT_TOKEN := getenv environ "TELEGRAM_BOT_TOKEN" in
  if negb (truthy BOT_TOKEN) then
    logger_error
      (Plain "❌ TELEGRAM_BOT_TOKEN environment variable is not set!") ;;
    logger_error
      (Plain "Please add TELEGRAM_BOT_TOKEN in the bot settings.") ;;
    sys_exit 1
  else
    main (default "" BOT_TOKEN).

End Script.

(** ** The rule table of the free-text callback *)

(** The four branches of [handle_message], in the order of the
    if-chain, as the ordered rule sequence the design describes:
    a predicate on the lowercased text and a response. *)
Inductive Rule := Greeting | WellBeing | Farewell | Fallback.

Definition rules : list Rule := [Greeting; WellBeing; Farewell; Fallback].

Definition predicate (r : Rule) (lowered : string) : bool :=
  match r with
  | Greeting => contains "hello" lowered || contains "hi" lowered
  | WellBeing => contains "how are you" lowered
  | Farewell => contains "bye" lowered
  | Fallback => true
  end.

Definition response (r : Rule) (user_name user_message : string) : string :=
  match r with
  | Greeting => greeting_text user_name
  | WellBeing => wellbeing_text
  | Farewell => farewell_text
  | Fallback => default_text user_message
  end.

(** First match wins. *)
Definition classify (lowered : string) : option Rule :=
  List.find (λ r, predicate r lowered) rules.

(** The condition under which control reaches the branch of a rule:
    its own predicate holds and that of every earlier rule fails. *)
Definition guard (r : Rule) (lowered : string) : bool :=
  match r with
  | Greeting => predicate Greeting lowered
  | WellBeing =>
      negb (predicate Greeting lowered) && predicate WellBeing lowered
  | Farewell =>
      negb (predicate Greeting lowered)
      && negb (predicate WellBeing lowered)
      && predicate Farewell lowered
  | Fallback =>
      negb (predicate Greeting lowered)
      && negb (predicate WellBeing lowered)
      && negb (predicate Farewell lowered)
      && predicate Fallback lowered
  end.

(** What is known of [str.lower] without its Unicode tables: on ASCII
    text it is [ascii_lower]. *)
Definition ascii_faithful (lower : string → string) : Prop :=
  ∀ s, is_ascii s = true → lower s = ascii_lower s.

(** ** Sample inputs *)

Module Samples.

(** A connection on which every call goes through, and one on which
    every call fails. *)
Definition delivers : list Event → option Exception := λ _, None.
Definition offline : list Event → option Exception :=
  λ _, Some (Exc "NetworkError" "connection lost").

Definition ada : User := {| id := 7; first_name := "Ada" |}.

(** A plain text message from [ada]. *)
Definition says (t : string) : Update :=
  {| update_id := 1;
     message := {| message_id := 1; chat_id := 7; text := t |};
     effective_user := ada;
     is_command := false;
     command_name := None;
     command_args := [] |}.

(** The command [/name a1 a2 ...] from [ada]. *)
Definition commands (name : string) (a : list string) : Update :=
  {| update_id := 2;
     message :=
       {| message_id := 2; chat_id := 7;
          text := String.concat " " (("/" +:+ name) :: a) |};
     effective_user := ada;
     is_command := true;
     command_name := Some name;
     command_args := a |}.

End Samples.

Import Samples.

(** * Properties *)

(** ** Substrings *)

Module StrFacts.

Lemma append_nil (b : string) : "" +:+ b = b.
Proof. reflexivity. Qed.

Lemma append_cons (x : ascii) (a b : string) :
  String x a +:+ b = String x (a +:+ b).
Proof. reflexivity. Qed.

Lemma append_assoc (a b c : string) : (a +:+ b) +:+ c = a +:+ (b +:+ c).
Proof.
  induction a as [|x a IH]; [done|]. by rewrite !append_cons, IH.
Qed.

Lemma prefix_spec (a s : string) :
  String.prefix a s = true ↔ ∃ post, s = a +:+ post.
Proof.
  revert s. induction a as [|x a IH]; intros s.
  - split; [intros _; by exists s | intros _; by destruct s].
  - destruct s as [|y s]; simpl.
    + split; [done | by intros [post ?]].
    + destruct (ascii_dec x y) as [->|Hxy].
      * rewrite IH. split; intros [post Hp]; exists post.
        -- by rewrite append_cons, Hp.
        -- rewrite append_cons in Hp. by injection Hp.
      * split; [done|]. intros [post Hp].
        rewrite append_cons in Hp. injection Hp. congruence.
Qed.

Lemma contains_unfold (sub s : string) :
  contains sub s =
    if String.prefix sub s then true
    else match s with
         | EmptyString => false
         | String _ s' => contains sub s'
         end.
Proof. by destruct s. Qed.

(** [contains] decides [occurs_in]. *)
Lemma contains_spec (sub s : string) :
  contains sub s = true ↔ occurs_in sub s.
Proof.
  split.
  - induction s as [|y s IH]; rewrite contains_unfold;
      destruct (String.prefix sub _) eqn:Hp.
    + intros _. apply prefix_spec in Hp as [post ->]. by exists "", post.
    + done.
    + intros _. apply prefix_spec in Hp as [post Hp]. by exists "", post.
    + intros [pre [post ->]]%IH. by exists (String y pre), post.
  - intros [pre [post ->]]. induction pre as [|y pre IH].
    + rewrite contains_unfold, append_nil.
      replace (String.prefix sub (sub +:+ post)) with true; [done|].
      symmetry. apply prefix_spec. by exists post.
    + rewrite contains_unfold, append_cons.
      by destruct (String.prefix sub _).
Qed.

Lemma contains_append_r (sub pre s : string) :
  contains sub s = true → contains sub (pre +:+ s) = true.
Proof.
  rewrite !contains_spec. intros [a [b ->]].
  exists (pre +:+ a), b. by rewrite append_assoc.
Qed.

Lemma contains_append_l (sub s post : string) :
  contains sub s = true → contains sub (s +:+ post) = true.
Proof.
  rewrite !contains_spec. intros [a [b ->]].
  exists a, (b +:+ post). by rewrite !append_assoc.
Qed.

End StrFacts.

Import StrFacts.

(** ** The callbacks emit one call *)

Section CallbackFacts.

Variable transport : list Event → option Exception.
Variable lower : string → string.

Lemma reply_text_emitted m body pm past :
  emitted (reply_text transport m body pm) past
  = [ReplyText (chat_id m) body pm].
Proof. unfold emitted, reply_text. by destruct (transport _). Qed.

Lemma reply_text_outcome m body pm past :
  outcome (reply_text transport m body pm) past
  = match transport (past ++ [ReplyText (chat_id m) body pm]) with
    | None => Returned tt
    | Some e => Raised e
    end.
Proof. unfold outcome, reply_text. by destruct (transport _). Qed.

Lemma start_command_emitted u c past :
  emitted (start_command transport u c) past
  = [ReplyText (chat_id (message u))
               (start_text (first_name (effective_user u))) None].
Proof. apply reply_text_emitted. Qed.

Lemma help_command_emitted u c past :
  emitted (help_command transport u c) past
  = [ReplyText (chat_id (message u)) help_text (Some "Markdown")].
Proof. apply reply_text_emitted. Qed.

Lemma echo_command_emitted u c past :
  emitted (echo_command transport u c) past
  = [ReplyText (chat_id (message u))
       (match args c with
        | [] => echo_usage
        | _ :: _ => "🔄 You said: " +:+ String.concat " " (args c)
        end) None].
Proof.
  unfold echo_command. destruct (args c); apply reply_text_emitted.
Qed.

(** The free-text callback is one call of [reply_text], with the
    response of the first rule whose predicate holds on the
    lowercased text. *)
Lemma handle_message_classify u c :
  ∃ r, classify (lower (text (message u))) = Some r
     ∧ handle_message transport lower u c
       = reply_text transport (message u)
           (response r (first_name (effective_user u))
                       (text (message u))) None.
Proof.
  unfold handle_message, classify, rules. simpl.
  destruct (contains "hello" _ || contains "hi" _); [by exists Greeting|].
  destruct (contains "how are you" _); [by exists WellBeing|].
  destruct (contains "bye" _); [by exists Farewell|].
  by exists Fallback.
Qed.

Lemma handle_message_emitted u c past r :
  classify (lower (text (message u))) = Some r →
  emitted (handle_message transport lower u c) past
  = [ReplyText (chat_id (message u))
       (response r (first_name (effective_user u)) (text (message u)))
       None].
Proof.
  intros Hr. destruct (handle_message_classify u c) as [r' [Hr' ->]].
  rewrite Hr in Hr'. injection Hr' as <-. apply reply_text_emitted.
Qed.

Lemma handle_message_outcome u c past r :
  classify (lower (text (message u))) = Some r →
  outcome (handle_message transport lower u c) past
  = match transport
            (past ++ [ReplyText (chat_id (message u))
                        (response r (first_name (effective_user u))
                                    (text (message u))) None]) with
    | None => Returned tt
    | Some e => Raised e
    end.
Proof.
  intros Hr. destruct (handle_message_classify u c) as [r' [Hr' ->]].
  rewrite Hr in Hr'. injection Hr' as <-. apply reply_text_outcome.
Qed.

End CallbackFacts.


(** ** The command listings *)

Lemma registered_commands transport lower tok :
  command_names (handlers (application transport lower tok))
  = ["start"; "help"; "about"; "echo"].
Proof. reflexivity. Qed.

(** C1, as it is stated, does not hold: it would make the reply of
    [/start] mention every registered command name, and that reply,
    sent to a user called Ada, does not contain the name [start]. *)
Lemma start_reply_omits_start :
  ¬ (∀ transport lower tok u c past name,
       name ∈ command_names (handlers (application transport lower tok)) →
       (∃ body, replies (emitted (start_command transport u c) past) = [body]
                ∧ contains name body = true)
       ∧ (∃ body, replies (emitted (help_command transport u c) past) = [body]
                  ∧ contains name body = true)).
Proof.
  intros H.
  destruct (H delivers ascii_lower "t" (commands "start" [])
              (context_of (commands "start" [])) [] "start")
    as [[body [Hb Hc]] _].
  { rewrite registered_commands. apply list_elem_of_here. }
  vm_compute in Hb. injection Hb as <-.
  vm_compute in Hc. discriminate Hc.
Qed.

(** C1, amended: the reply of [/help] mentions every registered
    command name, and the reply of [/start] mentions every registered
    command name other than [start] itself. *)
Theorem command_listings transport lower tok u c past name :
  name ∈ command_names (handlers (application transport lower tok)) →
  (∃ body, replies (emitted (help_command transport u c) past) = [body]
           ∧ contains name body = true)
  ∧ (name ≠ "start" →
     ∃ body, replies (emitted (start_command transport u c) past) = [body]
             ∧ contains name body = true).
Proof.
  rewrite registered_commands. intros Hin.
  assert (name = "start" ∨ name = "help" ∨ name = "about" ∨ name = "echo")
    as Hname.
  { repeat (apply elem_of_cons in Hin as [->|Hin]; [tauto|]).
    by apply elem_of_nil in Hin. }
  split.
  - exists help_text. rewrite help_command_emitted. split; [done|].
    destruct Hname as [->|[->|[->| ->]]]; by vm_compute.
  - intros Hne. exists (start_text (first_name (effective_user u))).
    rewrite start_command_emitted. split; [done|].
    unfold start_text. do 2 apply contains_append_r.
    destruct Hname as [->|[->|[->| ->]]]; [done|by vm_compute..].
Qed.

Lemma command_listings_witness :
  (∃ body, replies (emitted (help_command delivers (commands "help" [])
                               (context_of (commands "help" []))) []) = [body]
           ∧ contains "echo" body = true)
  ∧ ("echo" ≠ "start" →
     ∃ body, replies (emitted (start_command delivers (commands "help" [])
                                 (context_of (commands "help" []))) []) = [body]
             ∧ contains "echo" body = true).
Proof.
  apply (command_listings delivers ascii_lower "t" (commands "help" [])
           (context_of (commands "help" [])) [] "echo").
  vm_compute. do 3 apply list_elem_of_further. apply list_elem_of_here.
Defined.

(** ** The echo command *)

(** C2: with arguments, [/echo] replies with the echo marker followed
    by the arguments joined by single spaces, so that the arguments
    Hello, World give a body containing "Hello World"; without
    arguments it replies with the usage hint, the text that asks for
    a message to echo and shows an example call, and that text is not
    the echo of an empty or of any other text. *)
Theorem echo_command_reply transport u c past :
  (args c ≠ [] →
   emitted (echo_command transport u c) past
   = [ReplyText (chat_id (message u))
        ("🔄 You said: " +:+ String.concat " " (args c)) None])
  ∧ (args c = [] →
     emitted (echo_command transport u c) past
     = [ReplyText (chat_id (message u))
          ("Please provide a message to echo!" +:+ nl +:+ nl +:+
           "Example: /echo Hello World") None])
  ∧ (∀ l : list string,
       "Please provide a message to echo!" +:+ nl +:+ nl +:+
       "Example: /echo Hello World"
       ≠ "🔄 You said: " +:+ String.concat " " l)
  ∧ (args c = ["Hello"; "World"] →
     ∃ body, replies (emitted (echo_command transport u c) past) = [body]
             ∧ contains "Hello World" body = true).
Proof.
  rewrite echo_command_emitted. repeat split.
  - by destruct (args c).
  - by intros ->.
  - intros l Heq. cbv in Heq. discriminate Heq.
  - intros ->. eexists. split; [done|]. by vm_compute.
Qed.

Lemma echo_command_reply_witness :
  emitted (echo_command delivers (commands "echo" ["Hello"; "World"])
             (context_of (commands "echo" ["Hello"; "World"]))) []
  = [ReplyText 7 "🔄 You said: Hello World" None]
  ∧ emitted (echo_command delivers (commands "echo" [])
               (context_of (commands "echo" []))) []
    = [ReplyText 7 ("Please provide a message to echo!" +:+ nl +:+ nl +:+
                    "Example: /echo Hello World") None].
Proof.
  split.
  - apply (echo_command_reply delivers (commands "echo" ["Hello"; "World"])
             (context_of (commands "echo" ["Hello"; "World"])) []).
    vm_compute. discriminate.
  - apply (echo_command_reply delivers (commands "echo" [])
             (context_of (commands "echo" [])) []).
    reflexivity.
Defined.

(** ** The free-text rules *)

Lemma classify_guard (lowered : string) (r : Rule) :
  classify lowered = Some r ↔ guard r lowered = true.
Proof.
  unfold classify, rules, guard. simpl.
  destruct (contains "hello" lowered || contains "hi" lowered),
    (contains "how are you" lowered), (contains "bye" lowered),
    r; simpl; split; congruence.
Qed.

Lemma classify_total (lowered : string) : is_Some (classify lowered).
Proof.
  unfold classify, rules. simpl.
  destruct (contains "hello" lowered || contains "hi" lowered),
    (contains "how are you" lowered), (contains "bye" lowered); by eexists.
Qed.

Lemma ascii_lower_faithful : ascii_faithful ascii_lower.
Proof. by intros s _. Qed.

Lemma greeting_not_farewell (user_name : string) :
  greeting_text user_name ≠ farewell_text.
Proof. intros H. cbv in H. discriminate H. Qed.


(** The four responses start differently, so a body tells its rule. *)
Lemma response_rule_inj r r' n n' t t' :
  response r n t = response r' n' t' → r = r'.
Proof.
  destruct r, r'; try done; intros Heq; cbv in Heq; discriminate Heq.
Qed.


(** C3: a text whose lowercasing contains both "hello" and "bye" is
    answered by the first rule, the greeting, and not by the
    farewell. *)
Theorem greeting_wins_over_farewell transport lower u c past :
  contains "hello" (lower (text (message u))) = true →
  contains "bye" (lower (text (message u))) = true →
  classify (lower (text (message u))) = Some Greeting
  ∧ replies (emitted (handle_message transport lower u c) past)
    = [greeting_text (first_name (effective_user u))]
  ∧ greeting_text (first_name (effective_user u)) ≠ farewell_text.
Proof.
  intros Hhello _.
  assert (classify (lower (text (message u))) = Some Greeting) as Hr.
  { apply classify_guard. simpl. by rewrite Hhello. }
  split; [done|]. split; [|apply greeting_not_farewell].
  by rewrite (handle_message_emitted _ _ _ _ _ _ Hr).
Qed.

Lemma greeting_wins_over_farewell_witness :
  classify (ascii_lower "hello, gotta go bye") = Some Greeting
  ∧ replies (emitted (handle_message delivers ascii_lower
                        (says "hello, gotta go bye")
                        (context_of (says "hello, gotta go bye"))) [])
    = ["Hello Ada! 👋 How can I help you today?"]
  ∧ greeting_text "Ada" ≠ farewell_text.
Proof.
  apply (greeting_wins_over_farewell delivers ascii_lower
           (says "hello, gotta go bye")
           (context_of (says "hello, gotta go bye")) []);
    vm_compute; reflexivity.
Defined.

(** C5: on the empty text no rule before the last one matches, so
    the free-text callback answers with the default reply (the text
    echoed back and the hint at /help) and, the call going through,
    returns without raising; an event that is not a command and
    carries the empty text is routed to the free-text callback. *)
Theorem empty_text_takes_default transport lower tok u c past :
  ascii_faithful lower →
  text (message u) = "" →
  classify (lower (text (message u))) = Some Fallback
  ∧ emitted (handle_message transport lower u c) past
    = [ReplyText (chat_id (message u)) (default_text "") None]
  ∧ occurs_in "/help" (default_text "")
  ∧ (transport (past ++ [ReplyText (chat_id (message u))
                           (default_text "") None]) = None →
     outcome (handle_message transport lower u c) past = Returned tt)
  ∧ (is_command u = false →
     route (handlers (application transport lower tok)) u
     = Some (handle_message transport lower)).
Proof.
  intros Hlower Htext.
  assert (classify (lower (text (message u))) = Some Fallback) as Hr.
  { rewrite Htext, Hlower by done. reflexivity. }
  split; [done|].
  rewrite (handle_message_emitted _ _ _ _ past _ Hr),
    (handle_message_outcome _ _ _ _ past _ Hr), Htext.
  split; [done|]. split; [by apply contains_spec|]. split.
  - simpl. by intros ->.
  - intros Hcmd. simpl. by rewrite Hcmd.
Qed.

Lemma empty_text_takes_default_witness :
  classify (ascii_lower (text (message (says "")))) = Some Fallback
  ∧ emitted (handle_message delivers ascii_lower (says "")
               (context_of (says ""))) []
    = [ReplyText 7 (default_text "") None]
  ∧ occurs_in "/help" (default_text "")
  ∧ (delivers ([] ++ [ReplyText 7 (default_text "") None]) = None →
     outcome (handle_message delivers ascii_lower (says "")
                (context_of (says ""))) [] = Returned tt)
  ∧ (is_command (says "") = false →
     route (handlers (application delivers ascii_lower "t")) (says "")
     = Some (handle_message delivers ascii_lower)).
Proof.
  apply (empty_text_takes_default delivers ascii_lower "t" (says "")
           (context_of (says "")) []).
  - intros s _. reflexivity.
  - reflexivity.
Defined.



(** C9: the free-text callback calls [reply_text] exactly once: for
    every text exactly one of the four branches is reached, the last
    one when none of the three predicates holds, and the reply is the
    response of that branch. *)
Theorem free_text_gets_one_reply transport lower u c past :
  ∃ r, guard r (lower (text (message u))) = true
     ∧ (∀ r', guard r' (lower (text (message u))) = true → r' = r)
     ∧ (predicate Greeting (lower (text (message u))) = false →
        predicate WellBeing (lower (text (message u))) = false →
        predicate Farewell (lower (text (message u))) = false →
        r = Fallback)
     ∧ emitted (handle_message transport lower u c) past
       = [ReplyText (chat_id (message u))
            (response r (first_name (effective_user u)) (text (message u)))
            None]
     ∧ length (replies (emitted (handle_message transport lower u c) past))
       = 1%nat.
Proof.
  destruct (classify_total (lower (text (message u)))) as [r Hr].
  exists r. split; [by apply classify_guard|]. split; [|split].
  - intros r' Hr'. apply classify_guard in Hr'. congruence.
  - intros H1 H2 H3. apply classify_guard in Hr.
    destruct r; [..|done]; unfold guard in Hr;
      rewrite ?H1, ?H2, ?H3 in Hr; done.
  - by rewrite (handle_message_emitted _ _ _ _ past _ Hr).
Qed.

Lemma free_text_gets_one_reply_witness :
  length (replies (emitted (handle_message delivers ascii_lower
                              (says "how are you")
                              (context_of (says "how are you"))) []))
  = 1%nat.
Proof.
  destruct (free_text_gets_one_reply delivers ascii_lower
              (says "how are you") (context_of (says "how are you")) [])
    as [r [_ [_ [_ [_ Hone]]]]].
  exact Hone.
Defined.

(** C10: the reply of the free-text callback is a function of the
    text and of the sender's first name: two updates that agree on
    both get the same reply bodies, whatever else differs in the
    updates, in the contexts, in the connection or in the past. *)
Theorem reply_depends_on_text_and_name
    transport transport' lower u u' c c' past past' :
  text (message u) = text (message u') →
  first_name (effective_user u) = first_name (effective_user u') →
  replies (emitted (handle_message transport lower u c) past)
  = replies (emitted (handle_message transport' lower u' c') past').
Proof.
  intros Htext Hname.
  destruct (classify_total (lower (text (message u)))) as [r Hr].
  rewrite (handle_message_emitted _ _ _ _ past _ Hr).
  rewrite Htext in Hr.
  rewrite (handle_message_emitted _ _ _ _ past' _ Hr).
  simpl. by rewrite Htext, Hname.
Qed.

Lemma reply_depends_on_text_and_name_witness :
  replies (emitted (handle_message delivers ascii_lower (says "see you, bye")
                      (context_of (says "see you, bye"))) [])
  = replies (emitted (handle_message offline ascii_lower
                        {| update_id := 99;
                           message := {| message_id := 5; chat_id := 12;
                                         text := "see you, bye" |};
                           effective_user := {| id := 12; first_name := "Ada" |};
                           is_command := false;
                           command_name := None;
                           command_args := ["left"; "over"] |}
                        {| args := ["x"]; error := None |})
             [Log INFO (Plain "earlier")]).
Proof.
  apply (reply_depends_on_text_and_name delivers offline ascii_lower);
    reflexivity.
Defined.

(** ** One dispatch cycle *)

Lemma error_handler_logs u c past :
  error_handler u c past
  = ([Log ERROR (UpdateCausedError u (error c))], Returned tt).
Proof. reflexivity. Qed.

(** With [error_handler] as the one error callback, a cycle returns
    whatever the routed callback does: what the callback raises is
    logged after the events the callback emitted. *)
Lemma process_update_caught app u past :
  error_handlers app = [error_handler] →
  process_update app u past
  = match route (handlers app) u with
    | None => ([], Returned tt)
    | Some callback =>
        match callback u (context_of u) past with
        | (out, Returned tt) => (out, Returned tt)
        | (out, Raised e) =>
            (out ++ [Log ERROR (UpdateCausedError u (Some e))], Returned tt)
        end
    end.
Proof.
  intros Herr. unfold process_update. rewrite Herr.
  destruct (route (handlers app) u) as [callback|]; [|done].
  unfold try_except.
  destruct (callback u (context_of u) past) as [out [[]|e]]; done.
Qed.

Lemma process_update_returns app u past :
  error_handlers app = [error_handler] →
  ∃ out, process_update app u past = (out, Returned tt).
Proof.
  intros Herr. rewrite (process_update_caught _ _ _ Herr).
  destruct (route (handlers app) u) as [callback|]; [|by eexists].
  destruct (callback u (context_of u) past) as [out [[]|e]]; by eexists.
Qed.

(** The loop of such an application never leaves its two states. *)
Lemma polling_forever app past cfg :
  error_handlers app = [error_handler] →
  rtc step (Idle app, past) cfg →
  ∃ past', cfg = (Idle app, past') ∨ ∃ u, cfg = (Processing app u, past').
Proof.
  intros Herr Hsteps. revert cfg Hsteps. apply rtc_ind_r.
  - exists past. by left.
  - intros cfg cfg' _ Hstep [past1 [->|[u ->]]].
    + inversion Hstep; subst. exists past1. right. by exists u.
    + inversion Hstep; subst.
      * eexists. by left.
      * destruct (process_update_returns app u past1 Herr) as [out' Hout].
        congruence.
Qed.

Lemma route_unregistered transport lower tok u :
  is_command u = true →
  (∀ name, command_name u = Some name →
           name ∉ command_names (handlers (application transport lower tok))) →
  route (handlers (application transport lower tok)) u = None.
Proof.
  intros Hcmd Hname. simpl. rewrite Hcmd. simpl.
  rewrite !bool_decide_eq_false_2; [done|..];
    intros Heq; apply (Hname _ Heq); rewrite registered_commands;
    set_solver.
Qed.

(** C4: whatever the routed callback raises during a dispatch cycle
    is caught and handed to [error_handler], which logs it together
    with the update; the cycle itself returns, its only transition
    leads back to Idle, and no sequence of transitions of the polling
    process reaches an exited process. *)
Theorem failures_stay_inside_the_cycle transport lower tok u past :
  (∃ out,
      process_update (application transport lower tok) u past
      = (out, Returned tt)
      ∧ step (Processing (application transport lower tok) u, past)
             (Idle (application transport lower tok), past ++ out)
      ∧ (∀ cfg,
           step (Processing (application transport lower tok) u, past) cfg →
           cfg = (Idle (application transport lower tok), past ++ out))
      ∧ (∀ callback e,
           route (handlers (application transport lower tok)) u
           = Some callback →
           outcome (callback u (context_of u)) past = Raised e →
           out = emitted (callback u (context_of u)) past
                 ++ [Log ERROR (UpdateCausedError u (Some e))]))
  ∧ (∀ cfg,
       rtc step (Idle (application transport lower tok), past) cfg →
       ∀ code past', cfg ≠ (Exited code, past')).
Proof.
  set (app := application transport lower tok).
  assert (error_handlers app = [error_handler]) as Herr by reflexivity.
  split.
  - destruct (process_update_returns app u past Herr) as [out Hout].
    exists out. split; [done|]. split; [by constructor|]. split.
    + intros cfg Hstep. inversion Hstep; subst; congruence.
    + intros callback e Hroute Hraised.
      rewrite (process_update_caught _ _ _ Herr), Hroute in Hout.
      unfold outcome, emitted in *.
      destruct (callback u (context_of u) past) as [out' [[]|e']];
        simpl in *; congruence.
  - intros cfg Hsteps code past' ->.
    destruct (polling_forever app past _ Herr Hsteps)
      as [past1 [?|[u1 ?]]]; discriminate.
Qed.

Lemma failures_stay_inside_the_cycle_witness :
  process_update (application offline ascii_lower "t") (says "hello") []
  = ([ReplyText 7 "Hello Ada! 👋 How can I help you today?" None;
      Log ERROR (UpdateCausedError (says "hello")
                   (Some (Exc "NetworkError" "connection lost")))],
     Returned tt).
Proof.
  destruct (failures_stay_inside_the_cycle offline ascii_lower "t"
              (says "hello") [])
    as [[out [Hout [_ [_ Hlogged]]]] _].
  rewrite Hout. f_equal.
  apply (Hlogged (handle_message offline ascii_lower)
                 (Exc "NetworkError" "connection lost"));
    reflexivity.
Defined.

(** C7: a command event whose name is not one of the registered
    names selects no callback; the cycle emits nothing, so that no
    reply is sent, and it returns to Idle. *)
Theorem unregistered_command_is_dropped transport lower tok u past :
  is_command u = true →
  (∀ name, command_name u = Some name →
           name ∉ command_names (handlers (application transport lower tok))) →
  route (handlers (application transport lower tok)) u = None
  ∧ process_update (application transport lower tok) u past
    = ([], Returned tt)
  ∧ step (Processing (application transport lower tok) u, past)
         (Idle (application transport lower tok), past)
  ∧ (∀ cfg,
       step (Processing (application transport lower tok) u, past) cfg →
       cfg = (Idle (application transport lower tok), past)).
Proof.
  intros Hcmd Hname.
  pose proof (route_unregistered transport lower tok u Hcmd Hname) as Hroute.
  assert (process_update (application transport lower tok) u past
          = ([], Returned tt)) as Hcycle.
  { unfold process_update. by rewrite Hroute. }
  split; [done|]. split; [done|]. split.
  - rewrite <- (app_nil_r past) at 2. by constructor.
  - intros cfg Hstep. inversion Hstep; subst.
    + rewrite Hcycle in *. simplify_eq. by rewrite app_nil_r.
    + rewrite Hcycle in *. simplify_eq.
Qed.

Lemma unregistered_command_is_dropped_witness :
  route (handlers (application delivers ascii_lower "t"))
        (commands "settings" ["dark"]) = None
  ∧ process_update (application delivers ascii_lower "t")
      (commands "settings" ["dark"]) [] = ([], Returned tt).
Proof.
  destruct (unregistered_command_is_dropped delivers ascii_lower "t"
              (commands "settings" ["dark"]) [])
    as [Hroute [Hcycle _]].
  - reflexivity.
  - intros name [= <-].
    apply (bool_decide_unpack
             ("settings" ∉ command_names
                (handlers (application delivers ascii_lower "t")))).
    vm_compute. exact I.
  - by split.
Defined.

(** ** Start-up *)

Lemma exited_is_final code past cfg : ¬ step (Exited code, past) cfg.
Proof. intros Hstep. inversion Hstep. Qed.

(** C8: without the token in the environment the script logs the two
    error lines and exits with code 1, a process from which the
    Dispatch Loop takes no transition; and whenever the script does
    reach the polling state, the token was there and not empty, so a
    missing token is never met during dispatch. *)
Theorem missing_token_exits_before_polling transport lower environ past :
  (getenv environ "TELEGRAM_BOT_TOKEN" = None →
   script transport lower environ past
   = ([Log ERROR
         (Plain "❌ TELEGRAM_BOT_TOKEN environment variable is not set!");
       Log ERROR (Plain "Please add TELEGRAM_BOT_TOKEN in the bot settings.")],
      Returned (Exited 1))
   ∧ 1 ≠ 0
   ∧ (∀ past' cfg, ¬ step (Exited 1, past') cfg))
  ∧ (∀ out app,
       script transport lower environ past = (out, Returned (Idle app)) →
       ∃ tok, getenv environ "TELEGRAM_BOT_TOKEN" = Some tok
            ∧ tok ≠ ""
            ∧ app = application transport lower tok).
Proof.
  split.
  - intros Hnone. split; [|split].
    + unfold script. rewrite Hnone. reflexivity.
    + done.
    + intros past' cfg. apply exited_is_final.
  - intros out app. unfold script.
    destruct (getenv environ "TELEGRAM_BOT_TOKEN") as [tok|]; simpl.
    + destruct (decide (tok = "")) as [->|Hne].
      * intros [= _ ?].
      * rewrite bool_decide_eq_false_2 by done. simpl.
        intros [= _ <-]. by exists tok.
    + intros [= _ ?].
Qed.

Lemma missing_token_exits_before_polling_witness :
  outcome (script delivers ascii_lower {[ "HOME" := "/home/bot" ]}) []
  = Returned (Exited 1)
  ∧ ∃ tok, getenv {[ "TELEGRAM_BOT_TOKEN" := "42:secret" ]}
             "TELEGRAM_BOT_TOKEN" = Some tok
         ∧ tok ≠ "".
Proof.
  destruct (missing_token_exits_before_polling delivers ascii_lower
              {[ "HOME" := "/home/bot" ]} []) as [Hexit _].
  destruct (missing_token_exits_before_polling delivers ascii_lower
              {[ "TELEGRAM_BOT_TOKEN" := "42:secret" ]} []) as [_ Hpoll].
  split.
  - unfold outcome. destruct Hexit as [-> _]; reflexivity.
  - destruct (Hpoll _ _ eq_refl) as [tok [Htok [Hne _]]]. by exists tok.
Defined.

(** * Further properties of bot.py *)

(** ** More on strings *)

Module StrMore.

Lemma append_empty_r (a : string) : a +:+ "" = a.
Proof.
  induction a as [|x a IH]; [done|]. by rewrite append_cons, IH.
Qed.

Lemma length_append (a b : string) :
  String.length (a +:+ b) = (String.length a + String.length b)%nat.
Proof.
  induction a as [|x a IH]; [done|]. rewrite append_cons. simpl. by rewrite IH.
Qed.

(** Cancelling a common ending. *)
Lemma append_cancel_r (a b r : string) : a +:+ r = b +:+ r → a = b.
Proof.
  revert b. induction a as [|x a IH]; intros [|y b] Heq.
  - done.
  - apply (f_equal String.length) in Heq.
    rewrite append_nil, append_cons in Heq. simpl in Heq.
    rewrite length_append in Heq. lia.
  - apply (f_equal String.length) in Heq.
    rewrite append_nil, append_cons in Heq. simpl in Heq.
    rewrite length_append in Heq. lia.
  - rewrite !append_cons in Heq. injection Heq as -> Heq.
    f_equal. by apply IH.
Qed.

Lemma occurs_in_refl (a : string) : occurs_in a a.
Proof. exists "", "". by rewrite append_nil, append_empty_r. Qed.

Lemma occurs_in_append_r (a pre s : string) :
  occurs_in a s → occurs_in a (pre +:+ s).
Proof.
  intros [p [q ->]]. exists (pre +:+ p), q. by rewrite append_assoc.
Qed.

Lemma occurs_in_append_l (a s post : string) :
  occurs_in a s → occurs_in a (s +:+ post).
Proof.
  intros [p [q ->]]. exists p, (q +:+ post). by rewrite !append_assoc.
Qed.

Lemma concat_cons (sep x y : string) (l : list string) :
  String.concat sep (x :: y :: l) = x +:+ sep +:+ String.concat sep (y :: l).
Proof. reflexivity. Qed.

(** Every joined piece occurs in the result of [sep.join]. *)
Lemma occurs_in_concat (sep a : string) (l : list string) :
  a ∈ l → occurs_in a (String.concat sep l).
Proof.
  induction l as [|x [|y l] IH]; intros Hin.
  - by apply elem_of_nil in Hin.
  - apply list_elem_of_singleton in Hin as ->. apply occurs_in_refl.
  - rewrite concat_cons. apply elem_of_cons in Hin as [->|Hin].
    + apply occurs_in_append_l, occurs_in_refl.
    + by do 2 apply occurs_in_append_r; apply IH.
Qed.

(** [sep.join] adds one separator between neighbours and nothing at
    the ends. *)
Lemma length_concat (sep : string) (l : list string) :
  l ≠ [] →
  (String.length (String.concat sep l) + String.length sep
   = sum_list_with String.length l + length l * String.length sep)%nat.
Proof.
  induction l as [|x [|y l] IH]; intros Hne.
  - done.
  - simpl. lia.
  - rewrite concat_cons, !length_append.
    change (sum_list_with String.length (x :: y :: l))
      with (String.length x + sum_list_with String.length (y :: l))%nat.
    change (length (x :: y :: l)) with (S (length (y :: l))).
    specialize (IH ltac:(done)). lia.
Qed.

Lemma ascii_lower_append (a b : string) :
  ascii_lower (a +:+ b) = ascii_lower a +:+ ascii_lower b.
Proof.
  induction a as [|x a IH]; [done|].
  rewrite append_cons. simpl. by rewrite IH, append_cons.
Qed.

End StrMore.

Import StrMore.

(** ** The registered callbacks *)

Lemma registered_callbacks transport lower tok :
  callback_of <$> handlers (application transport lower tok)
  = [start_command transport; help_command transport;
     about_command transport; echo_command transport;
     handle_message transport lower].
Proof. reflexivity. Qed.

Lemma registered_callback_cases transport lower tok cb :
  cb ∈ callback_of <$> handlers (application transport lower tok) →
  cb = start_command transport ∨ cb = help_command transport
  ∨ cb = about_command transport ∨ cb = echo_command transport
  ∨ cb = handle_message transport lower.
Proof.
  rewrite registered_callbacks. intros Hin.
  repeat (apply elem_of_cons in Hin as [->|Hin]; [tauto|]).
  by apply elem_of_nil in Hin.
Qed.

(** Each registered callback is one call of [reply_text], into the
    chat of the message; with a parse mode the body is one of the two
    fixed texts. *)
Lemma registered_callback_call transport lower tok cb u c :
  cb ∈ callback_of <$> handlers (application transport lower tok) →
  ∃ body pm,
    cb u c = reply_text transport (message u) body pm
    ∧ (pm = None
       ∨ pm = Some "Markdown" ∧ (cb = help_command transport ∧ body = help_text
                                 ∨ cb = about_command transport
                                   ∧ body = about_text)).
Proof.
  intros [->|[->|[->|[->| ->]]]]%registered_callback_cases.
  - eexists _, _. split; [reflexivity|by left].
  - eexists _, _. split; [reflexivity|]. right. split; [done|by left].
  - eexists _, _. split; [reflexivity|]. right. split; [done|by right].
  - unfold echo_command. destruct (args c); eexists _, _;
      (split; [reflexivity|by left]).
  - destruct (handle_message_classify transport lower u c) as [r [_ ->]].
    eexists _, _. split; [reflexivity|by left].
Qed.

(** X1: each of the five callbacks that [main] registers makes exactly
    one [reply_text] call, into the chat the message came from, and
    logs nothing; it returns when that call goes through and raises
    what the call raises otherwise. *)
Theorem registered_callbacks_reply_once transport lower tok cb u c past :
  cb ∈ callback_of <$> handlers (application transport lower tok) →
  ∃ body pm,
    emitted (cb u c) past = [ReplyText (chat_id (message u)) body pm]
    ∧ outcome (cb u c) past
      = match transport (past ++ [ReplyText (chat_id (message u)) body pm])
        with
        | None => Returned tt
        | Some e => Raised e
        end.
Proof.
  intros Hcb.
  destruct (registered_callback_call _ _ _ _ u c Hcb) as [body [pm [-> _]]].
  exists body, pm. split.
  - apply reply_text_emitted.
  - apply reply_text_outcome.
Qed.

Lemma registered_callbacks_reply_once_witness :
  ∃ body pm,
    emitted (echo_command offline (commands "echo" ["one"; "two"])
               (context_of (commands "echo" ["one"; "two"]))) []
    = [ReplyText 7 body pm]
    ∧ outcome (echo_command offline (commands "echo" ["one"; "two"])
                 (context_of (commands "echo" ["one"; "two"]))) []
      = match offline ([] ++ [ReplyText 7 body pm]) with
        | None => Returned tt
        | Some e => Raised e
        end.
Proof.
  apply (registered_callbacks_reply_once offline ascii_lower "t"
           (echo_command offline) (commands "echo" ["one"; "two"])
           (context_of (commands "echo" ["one"; "two"])) []).
  rewrite registered_callbacks.
  do 3 apply list_elem_of_further. apply list_elem_of_here.
Defined.



(** ** The echo command, continued *)

(** X3: every argument given to [/echo] occurs in its reply, and a
    reply to arguments is never the usage hint. *)
Theorem echo_reply_contains_arguments transport u c past a :
  a ∈ args c →
  ∃ body, replies (emitted (echo_command transport u c) past) = [body]
        ∧ occurs_in a body
        ∧ body ≠ echo_usage.
Proof.
  intros Hin. rewrite echo_command_emitted.
  destruct (args c) as [|x l] eqn:Hargs; [by apply elem_of_nil in Hin|].
  eexists. split; [reflexivity|]. split.
  - by apply occurs_in_append_r, occurs_in_concat.
  - intros Heq. cbv in Heq. discriminate Heq.
Qed.

Lemma echo_reply_contains_arguments_witness :
  ∃ body, replies (emitted (echo_command delivers
                              (commands "echo" ["tea"; "for"; "two"])
                              (context_of
                                 (commands "echo" ["tea"; "for"; "two"]))) [])
          = [body]
        ∧ occurs_in "for" body
        ∧ body ≠ echo_usage.
Proof.
  apply (echo_reply_contains_arguments delivers
           (commands "echo" ["tea"; "for"; "two"])
           (context_of (commands "echo" ["tea"; "for"; "two"])) [] "for").
  apply list_elem_of_further, list_elem_of_here.
Defined.

(** X4: the reply of [/echo] to arguments is as long as the marker,
    the arguments and one separator between neighbours: nothing is
    added in front of the first or after the last argument.  Lengths
    are counted on the encoded text. *)
Theorem echo_reply_length transport u c past :
  args c ≠ [] →
  ∃ body, replies (emitted (echo_command transport u c) past) = [body]
        ∧ (String.length body + 1
           = String.length "🔄 You said: "
             + sum_list_with String.length (args c)
             + length (args c))%nat.
Proof.
  intros Hne. rewrite echo_command_emitted.
  pose proof (length_concat " " (args c) Hne) as Hlen.
  destruct (args c) as [|x l]; [done|].
  eexists. split; [reflexivity|].
  rewrite length_append.
  change (String.length " ") with 1%nat in Hlen. lia.
Qed.

Lemma echo_reply_length_witness :
  ∃ body, replies (emitted (echo_command delivers
                              (commands "echo" ["tea"; "for"; "two"])
                              (context_of
                                 (commands "echo" ["tea"; "for"; "two"]))) [])
          = [body]
        ∧ (String.length body + 1
           = String.length "🔄 You said: "
             + sum_list_with String.length ["tea"; "for"; "two"] + 3)%nat.
Proof.
  apply (echo_reply_length delivers (commands "echo" ["tea"; "for"; "two"])
           (context_of (commands "echo" ["tea"; "for"; "two"])) []).
  vm_compute. discriminate.
Defined.

(** ** The free-text rules, continued *)

(** X5: the reply of the free-text callback tells which branch was
    taken: the body is the response of a rule exactly when control
    reaches that rule, that is, its predicate holds on the lowercased
    text and the predicate of every earlier rule fails. *)
Theorem reply_identifies_rule transport lower u c past r :
  replies (emitted (handle_message transport lower u c) past)
  = [response r (first_name (effective_user u)) (text (message u))]
  ↔ guard r (lower (text (message u))) = true.
Proof.
  split.
  - intros Hbody.
    destruct (classify_total (lower (text (message u)))) as [r0 Hr0].
    rewrite (handle_message_emitted _ _ _ _ past _ Hr0) in Hbody.
    injection Hbody as Heq. apply response_rule_inj in Heq as <-.
    by apply classify_guard.
  - intros Hr%classify_guard.
    by rewrite (handle_message_emitted _ _ _ _ past _ Hr).
Qed.

Lemma reply_identifies_rule_witness :
  guard WellBeing (ascii_lower "how are you? bye") = true
  ∧ replies (emitted (handle_message delivers ascii_lower
                        (says "how are you? bye")
                        (context_of (says "how are you? bye"))) [])
    = [wellbeing_text].
Proof.
  assert (guard WellBeing (ascii_lower "how are you? bye") = true) as Hg
    by reflexivity.
  split; [exact Hg|].
  apply (reply_identifies_rule delivers ascii_lower (says "how are you? bye")
           (context_of (says "how are you? bye")) [] WellBeing).
  exact Hg.
Defined.

(** X6: on ASCII text the greeting does not depend on letter case or
    on word boundaries: a text in which "hello" or "hi" occurs in any
    mix of upper and lower case, also inside a longer word, is
    answered by the greeting. *)
Theorem any_casing_is_greeted transport lower u c past pre w post :
  ascii_faithful lower →
  is_ascii (text (message u)) = true →
  text (message u) = pre +:+ w +:+ post →
  ascii_lower w = "hello" ∨ ascii_lower w = "hi" →
  replies (emitted (handle_message transport lower u c) past)
  = [greeting_text (first_name (effective_user u))].
Proof.
  intros Hlower Hascii Htext Hw.
  apply (reply_identifies_rule _ _ _ _ _ Greeting).
  rewrite Hlower by done. rewrite Htext, !ascii_lower_append.
  simpl. apply orb_true_iff.
  destruct Hw as [-> | ->]; [left|right]; apply contains_spec; by eexists _, _.
Qed.

Lemma any_casing_is_greeted_witness :
  replies (emitted (handle_message delivers ascii_lower (says "NotHIng much")
                      (context_of (says "NotHIng much"))) [])
  = ["Hello Ada! 👋 How can I help you today?"].
Proof.
  apply (any_casing_is_greeted delivers ascii_lower (says "NotHIng much")
           (context_of (says "NotHIng much")) [] "Not" "HI" "ng much").
  - intros s _. reflexivity.
  - reflexivity.
  - reflexivity.
  - right. reflexivity.
Defined.

Lemma default_text_inj t t' : default_text t = default_text t' → t = t'.
Proof.
  unfold default_text. intros Heq.
  apply (inj (String.app "You said: ")) in Heq.
  by apply append_cancel_r in Heq.
Qed.

(** X7: the default reply loses nothing of the text: when the last
    rule answers an update, any update that gets the same reply
    carries the same text, whatever bytes the text is made of. *)
Theorem default_reply_is_lossless transport lower u u' c c' past past' :
  guard Fallback (lower (text (message u))) = true →
  replies (emitted (handle_message transport lower u c) past)
  = replies (emitted (handle_message transport lower u' c') past') →
  text (message u) = text (message u').
Proof.
  intros Hr%classify_guard Heq.
  destruct (classify_total (lower (text (message u')))) as [r' Hr'].
  rewrite (handle_message_emitted _ _ _ _ past _ Hr),
    (handle_message_emitted _ _ _ _ past' _ Hr') in Heq.
  injection Heq as Heq.
  pose proof (response_rule_inj Fallback r' (first_name (effective_user u)) _
                (text (message u)) _ Heq) as <-.
  by apply default_text_inj.
Qed.

Lemma default_reply_is_lossless_witness :
  text (message (says "Quiet DAY"))
  = text (message {| update_id := 3;
                     message := {| message_id := 9; chat_id := 8;
                                   text := "Quiet DAY" |};
                     effective_user := ada;
                     is_command := false;
                     command_name := None;
                     command_args := [] |}).
Proof.
  apply (default_reply_is_lossless delivers ascii_lower
           (says "Quiet DAY") _
           (context_of (says "Quiet DAY")) (context_of (says "Quiet DAY"))
           [] []); reflexivity.
Defined.

Lemma start_text_inj n n' : start_text n = start_text n' → n = n'.
Proof.
  unfold start_text. intros Heq.
  apply (inj (String.app "👋 Hello ")) in Heq.
  by apply append_cancel_r in Heq.
Qed.

(** X8: the reply of [/start] carries the first name of the sender
    as it is, in a plain-text message, and two such replies with the
    same body were sent to users of the same first name. *)
Theorem start_reply_names_user transport u u' c c' past past' :
  (∃ body,
      emitted (start_command transport u c) past
      = [ReplyText (chat_id (message u)) body None]
      ∧ occurs_in (first_name (effective_user u)) body)
  ∧ (replies (emitted (start_command transport u c) past)
     = replies (emitted (start_command transport u' c') past') →
     first_name (effective_user u) = first_name (effective_user u')).
Proof.
  rewrite !start_command_emitted. split.
  - eexists. split; [reflexivity|]. unfold start_text.
    apply occurs_in_append_r, occurs_in_append_l, occurs_in_refl.
  - intros Heq. apply start_text_inj.
    apply (f_equal (λ l, default "" (head l))) in Heq. exact Heq.
Qed.

(** ** Start-up, continued *)

(** X9: a token variable that is set to the empty string counts as
    missing: the script logs the same two error lines and exits with
    code 1, as it does once the variable is removed. *)
Theorem empty_token_is_missing transport lower environ past :
  getenv environ "TELEGRAM_BOT_TOKEN" = Some "" →
  outcome (script transport lower environ) past = Returned (Exited 1)
  ∧ script transport lower environ past
    = script transport lower (delete "TELEGRAM_BOT_TOKEN" environ) past.
Proof.
  intros Hempty. unfold outcome, script.
  unfold getenv in *. rewrite Hempty, lookup_delete_eq. by split.
Qed.

Lemma empty_token_is_missing_witness :
  outcome (script delivers ascii_lower
             {[ "TELEGRAM_BOT_TOKEN" := ""; "HOME" := "/home/bot" ]}) []
  = Returned (Exited 1).
Proof.
  apply (empty_token_is_missing delivers ascii_lower
           {[ "TELEGRAM_BOT_TOKEN" := ""; "HOME" := "/home/bot" ]} []).
  reflexivity.
Defined.

(** X10: the script looks at the token variable and at nothing else
    in the environment.  Once the variable holds a non-empty value
    the script logs its two info lines and polls with the
    application built on that value, whatever the variable held
    before; setting any other variable changes nothing; and removing
    the token again makes the script exit. *)
Theorem setting_the_token transport lower environ past tok k v :
  tok ≠ "" →
  script transport lower (<["TELEGRAM_BOT_TOKEN" := tok]> environ) past
  = ([Log INFO (Plain "🚀 Starting bot...");
      Log INFO (Plain "✅ Bot is running! Press Ctrl+C to stop.")],
     Returned (Idle (application transport lower tok)))
  ∧ (k ≠ "TELEGRAM_BOT_TOKEN" →
     script transport lower (<[k := v]> environ) past
     = script transport lower environ past)
  ∧ outcome (script transport lower
               (delete "TELEGRAM_BOT_TOKEN"
                       (<["TELEGRAM_BOT_TOKEN" := tok]> environ))) past
    = Returned (Exited 1).
Proof.
  intros Hne. unfold outcome, script, getenv. split; [|split].
  - rewrite lookup_insert_eq. simpl.
    by rewrite bool_decide_eq_false_2.
  - intros Hk. by rewrite lookup_insert_ne.
  - by rewrite lookup_delete_eq.
Qed.

Lemma setting_the_token_witness :
  script delivers ascii_lower
    (<["TELEGRAM_BOT_TOKEN" := "42:secret"]>
       {[ "TELEGRAM_BOT_TOKEN" := ""; "HOME" := "/home/bot" ]}) []
  = ([Log INFO (Plain "🚀 Starting bot...");
      Log INFO (Plain "✅ Bot is running! Press Ctrl+C to stop.")],
     Returned (Idle (application delivers ascii_lower "42:secret"))).
Proof.
  apply (setting_the_token delivers ascii_lower
           {[ "TELEGRAM_BOT_TOKEN" := ""; "HOME" := "/home/bot" ]} []
           "42:secret" "HOME" "/").
  discriminate.
Defined.

(** X11: start-up has two ends and no third: for every environment
    the script returns without raising, has sent no reply, and has
    logged exactly two lines: two errors when it exits, and then the
    exit code is 1, or two info lines when it goes on to poll with
    the application built on the token of the environment. *)
Theorem start_up_outcomes transport lower environ past :
  ∃ out p,
    script transport lower environ past = (out, Returned p)
    ∧ replies out = []
    ∧ length out = 2%nat
    ∧ (p = Exited 1 ∧ Forall (λ ev, ∃ m, ev = Log ERROR m) out
       ∨ (∃ tok, getenv environ "TELEGRAM_BOT_TOKEN" = Some tok
                 ∧ p = Idle (application transport lower tok))
         ∧ Forall (λ ev, ∃ m, ev = Log INFO m) out).
Proof.
  unfold script.
  destruct (getenv environ "TELEGRAM_BOT_TOKEN") as [tok|] eqn:Htok; simpl.
  - destruct (decide (tok = "")) as [->|Hne].
    + eexists _, _. split; [reflexivity|]. split; [done|]. split; [done|].
      left. split; [done|]. repeat constructor; by eexists.
    + rewrite bool_decide_eq_false_2 by done.
      eexists _, _. split; [reflexivity|]. split; [done|]. split; [done|].
      right. split; [by exists tok|]. repeat constructor; by eexists.
  - eexists _, _. split; [reflexivity|]. split; [done|]. split; [done|].
    left. split; [done|]. repeat constructor; by eexists.
Qed.
